(** * Covalent: dashboard graph helpers and the workflow dispatch engine

    Two parts.

    - [Dashboard]: the graph helpers of the web dashboard's layout module
      ([filterGraph], [countEdges], [getHandlePositions], the direction table
      of [assignNodePositions]), embedded from the JavaScript source.
    - [Engine]: the workflow dispatch engine (transport graph, scheduler,
      cancellation, result aggregation, redispatch).  The engine's code is not
      part of the sources at hand (only notebooks that call it and print its
      results are), so it is modelled from the specification and checked
      against the runs the notebooks document. *)

From Stdlib Require Import String.
From Stdlib Require Import List Bool Arith ZArith Lia.
Import ListNotations.

(* ================================================================= *)
(** ** The dashboard's graph helpers *)

Module Dashboard.

Open Scope Z_scope.

(** A node of the graph the dashboard receives.  Only the fields the layout
    module reads are kept. *)
Record GNode := mkGNode {
  id : Z;
  name : string;
  type : string
}.

(** A link; [source] and [target] are node ids. *)
Record Link := mkLink {
  source : Z;
  target : Z;
  edge_name : string
}.

Record Graph := mkGraph {
  nodes : list GNode;
  links : list Link
}.

(** [new Set(ids)] followed by [nodeSet.has(x)]: membership among the ids. *)
Definition Set_has (nodeSet : list Z) (x : Z) : bool :=
  existsb (Z.eqb x) nodeSet.

(** [const filterGraph = (graph, nodePredicate) => ...] *)
Definition filterGraph (graph : Graph) (nodePredicate : GNode -> bool) : Graph :=
  let nodes' := filter nodePredicate (nodes graph) in
  let nodeSet := map id nodes' in
  let links' := filter (fun l => Set_has nodeSet (source l)) (links graph) in
  mkGraph nodes' links'.

(** The counter object [{ inputs, outputs }] of [countEdges]. *)
Record EdgeCount := mkEdgeCount {
  inputs : nat;
  outputs : nat
}.

(** The element edges handed to [countEdges]; ids are strings there
    ([String(source)]), compared with [===]. *)
Record ElEdge := mkElEdge {
  el_source : string;
  el_target : string
}.

(** The reducer of [countEdges]: two independent [if]s, so one edge can bump
    both counters. *)
Definition countEdges_step (nodeId : string) (res : EdgeCount) (edge : ElEdge)
  : EdgeCount :=
  let res1 := if String.eqb (el_source edge) nodeId
              then mkEdgeCount (inputs res) (S (outputs res)) else res in
  if String.eqb (el_target edge) nodeId
  then mkEdgeCount (S (inputs res1)) (outputs res1) else res1.

(** [export const countEdges = (nodeId, edges) => _.reduce(edges, ..., { inputs: 0, outputs: 0 })] *)
Definition countEdges (nodeId : string) (edges : list ElEdge) : EdgeCount :=
  fold_left (countEdges_step nodeId) edges (mkEdgeCount 0 0).

(** [getHandlePositions]: the [switch] with its throwing [default]. *)
Record HandlePositions := mkHandle {
  h_source : string;
  h_target : string
}.

Definition getHandlePositions (direction : string) : string + HandlePositions :=
  if String.eqb direction "DOWN" then inr (mkHandle "bottom" "top")
  else if String.eqb direction "UP" then inr (mkHandle "top" "bottom")
  else if String.eqb direction "LEFT" then inr (mkHandle "left" "right")
  else if String.eqb direction "RIGHT" then inr (mkHandle "right" "left")
  else inl ("Illegal direction: " ++ direction)%string.

(** The [rankdir] chosen at the top of [assignNodePositions]. *)
Definition handleDirection (direction : string) : string :=
  if String.eqb direction "DOWN" then "TB"
  else if String.eqb direction "RIGHT" then "LR"
  else if String.eqb direction "LEFT" then "RL"
  else "BT".

End Dashboard.

(* ================================================================= *)
(** ** The workflow dispatch engine *)

Module Engine.

(** Outputs are opaque to the engine; the documented runs use integers. *)
Definition value := Z.

(** A reference to a callable task definition. *)
Definition task_ref := string.

(** Node identity: the position of the node in the graph, assigned in
    increasing order by [add_node]. *)
Definition node_id := nat.

Inductive node_status := PENDING | RUNNING | COMPLETED | FAILED | CANCELLED.

Inductive dispatch_status :=
  D_CREATED | D_RUNNING | D_COMPLETED | D_FAILED | D_CANCELLED.

Inductive edge_kind :=
| positional_arg (index : nat)
| keyword_arg (name : string)
| wait_only.

Inductive node_kind :=
| parameter (v : value)
| task (ref : task_ref)
| post_process (ref : task_ref).

(** Executor assignment of a node.  The engine reads nothing of it but passes
    it on; [honors_cancel] records whether that executor stops a running task
    on [request_cancel]. *)
Record capability := mkCap {
  executor_name : string;
  honors_cancel : bool
}.

Record Node := mkNode {
  node_name : string;
  kind : node_kind;
  executor : capability
}.

Record Edge := mkEdge {
  src : node_id;
  dst : node_id;
  ekind : edge_kind
}.

(** Modelled from the spec: the Transport Graph container (the engine's graph
    class is not among the sources).  [sig_args] and [sig_kwargs] are the
    lattice's declared signature: the root parameter nodes bound to its
    positional and keyword arguments. *)
Record TransportGraph := mkGraph {
  nodes : list Node;
  edges : list Edge;
  sig_args : list node_id;
  sig_kwargs : list (string * node_id)
}.

Inductive engine_error :=
| GraphMutationError
| UnrunnableGraphError
| RedispatchMismatchError
| UnknownDispatch.

Definition status_eqb (a b : node_status) : bool :=
  match a, b with
  | PENDING, PENDING | RUNNING, RUNNING | COMPLETED, COMPLETED
  | FAILED, FAILED | CANCELLED, CANCELLED => true
  | _, _ => false
  end.

Definition is_terminal (s : dispatch_status) : bool :=
  match s with
  | D_COMPLETED | D_FAILED | D_CANCELLED => true
  | D_CREATED | D_RUNNING => false
  end.

Definition node_terminal (s : node_status) : bool :=
  match s with
  | COMPLETED | FAILED | CANCELLED => true
  | PENDING | RUNNING => false
  end.

Definition node_ids (g : TransportGraph) : list node_id :=
  seq 0 (length (nodes g)).

Definition in_graph (g : TransportGraph) (n : node_id) : bool :=
  n <? length (nodes g).

Definition in_edges (g : TransportGraph) (n : node_id) : list Edge :=
  filter (fun e => dst e =? n) (edges g).

(** Modelled from the spec: [predecessors(node_id)], over edges of every kind. *)
Definition predecessors (g : TransportGraph) (n : node_id) : list node_id :=
  map src (in_edges g n).

Definition successors (g : TransportGraph) (n : node_id) : list node_id :=
  map dst (filter (fun e => src e =? n) (edges g)).

(** Modelled from the spec: [is_runnable(node_id, status_snapshot)], true iff
    the status is PENDING and every predecessor is COMPLETED. *)
Definition is_runnable (g : TransportGraph) (st : node_id -> node_status)
           (n : node_id) : bool :=
  status_eqb (st n) PENDING &&
  forallb (fun p => status_eqb (st p) COMPLETED) (predecessors g n).

(** Modelled from the spec: [add_node(task_ref, name) -> node_id] and
    [add_edge(src, dst, kind)] of the graph builder. *)
Definition add_node (g : TransportGraph) (nd : Node) : TransportGraph * node_id :=
  (mkGraph (nodes g ++ [nd]) (edges g) (sig_args g) (sig_kwargs g),
   length (nodes g)).

Definition add_edge (g : TransportGraph) (e : Edge) : TransportGraph :=
  mkGraph (nodes g) (edges g ++ [e]) (sig_args g) (sig_kwargs g).

(** Modelled from the spec: [topological_generations()].  A node joins a
    generation once all its predecessors lie in earlier generations; the
    peeling stops when nothing is ready (a cycle or a dangling reference). *)
Fixpoint generations_aux (fuel : nat) (g : TransportGraph)
         (done remaining : list node_id) : list (list node_id) :=
  match fuel with
  | O => []
  | S fuel' =>
      let ready n := forallb (fun p => existsb (Nat.eqb p) done) (predecessors g n) in
      match filter ready remaining with
      | [] => []
      | gen => gen :: generations_aux fuel' g (done ++ gen)
                        (filter (fun n => negb (ready n)) remaining)
      end
  end.

Definition topological_generations (g : TransportGraph) : list (list node_id) :=
  generations_aux (length (nodes g)) g [] (node_ids g).

(** The depth of a graph: the number of its generations. *)
Definition depth (g : TransportGraph) : nat :=
  length (topological_generations g).

(** The dispatch-time check behind [UnrunnableGraphError]: every node is
    placed in a generation, so there is no cycle and no dangling source. *)
Definition runnable_graph (g : TransportGraph) : bool :=
  forallb (fun n => existsb (Nat.eqb n) (concat (topological_generations g)))
          (node_ids g).

(** What the scheduler hands to an Executor:
    [submit(task_ref, args, kwargs, capability_descriptor)]. *)
Record Submission := mkSub {
  sub_node : node_id;
  sub_task : task_ref;
  sub_args : list value;
  sub_kwargs : list (string * value);
  sub_executor : capability
}.

(** What the Executor's future yields. *)
Inductive outcome := Success (v : value) | Failure.

Definition Executor := Submission -> outcome.

(** Modelled from the spec: a Dispatch, one execution instance of a graph:
    the status/output table, the cancellation flag, the top-level status, the
    submissions made so far and the bound input arguments. *)
Record Dispatch := mkDispatch {
  graph : TransportGraph;
  status : node_id -> node_status;
  output : node_id -> option value;
  cancel_flag : bool;
  dstatus : dispatch_status;
  submitted : list Submission;
  input_args : list value;
  input_kwargs : list (string * value)
}.

Definition upd {A : Type} (f : node_id -> A) (n : node_id) (a : A) : node_id -> A :=
  fun m => if m =? n then a else f m.

Definition with_status (d : Dispatch) (st : node_id -> node_status) : Dispatch :=
  mkDispatch (graph d) st (output d) (cancel_flag d) (dstatus d) (submitted d)
             (input_args d) (input_kwargs d).

Definition with_dstatus (d : Dispatch) (s : dispatch_status) : Dispatch :=
  mkDispatch (graph d) (status d) (output d) (cancel_flag d) s (submitted d)
             (input_args d) (input_kwargs d).

(** *** Input resolution *)

Fixpoint insert_by_index (i : nat) (p : node_id) (l : list (nat * node_id))
  : list (nat * node_id) :=
  match l with
  | [] => [(i, p)]
  | (j, q) :: l' =>
      if i <? j then (i, p) :: l else (j, q) :: insert_by_index i p l'
  end.

(** The sources of the positional edges into [n], by argument index. *)
Definition positional_sources (g : TransportGraph) (n : node_id)
  : list (nat * node_id) :=
  fold_right (fun e acc =>
                match ekind e with
                | positional_arg i => insert_by_index i (src e) acc
                | _ => acc
                end) [] (in_edges g n).

(** Modelled from the spec: the resolved inputs of a node are read from the
    outputs of its value-dependency predecessors; a wait-only predecessor
    contributes no value. *)
Definition resolved_args (g : TransportGraph) (out : node_id -> option value)
           (n : node_id) : list value :=
  flat_map (fun ip => match out (snd ip) with Some v => [v] | None => [] end)
           (positional_sources g n).

Definition resolved_kwargs (g : TransportGraph) (out : node_id -> option value)
           (n : node_id) : list (string * value) :=
  flat_map (fun e =>
              match ekind e with
              | keyword_arg k =>
                  match out (src e) with Some v => [(k, v)] | None => [] end
              | _ => []
              end) (in_edges g n).

(** The submission made for node [n]; a parameter node has no task to run and
    is not handed to an Executor. *)
Definition submission_of (g : TransportGraph) (out : node_id -> option value)
           (n : node_id) : list Submission :=
  match nth_error (nodes g) n with
  | Some nd =>
      match kind nd with
      | parameter _ => []
      | task ref | post_process ref =>
          [mkSub n ref (resolved_args g out n) (resolved_kwargs g out n)
                 (executor nd)]
      end
  | None => []
  end.

(** *** Scheduler *)

Definition sweep_pending (st : node_id -> node_status) : node_id -> node_status :=
  fun n => match st n with PENDING => CANCELLED | s => s end.

(** Modelled from the spec (4.2 steps 2-3, 4.3): recompute the runnable set
    and submit it; once the cancellation flag is set every PENDING node is
    ineligible and becomes CANCELLED instead. *)
Definition submit_runnable (d : Dispatch) : Dispatch :=
  let g := graph d in
  let st := status d in
  if cancel_flag d then with_status d (sweep_pending st)
  else
    let ready := filter (is_runnable g st) (node_ids g) in
    mkDispatch g
               (fun n => if in_graph g n && is_runnable g st n then RUNNING else st n)
               (output d) (cancel_flag d) (dstatus d)
               (submitted d ++ flat_map (submission_of g (output d)) ready)
               (input_args d) (input_kwargs d).

(** Modelled from the spec (section 3, Dispatch status): FAILED as soon as a
    node is FAILED, else CANCELLED when cancellation was requested, else
    COMPLETED when all nodes are.  The last branch (nodes left over without a
    failure or a cancellation) only arises for graphs that [create] rejects,
    and the spec gives it no status. *)
Definition derive_status (g : TransportGraph) (st : node_id -> node_status)
           (flag : bool) : dispatch_status :=
  if existsb (fun n => status_eqb (st n) FAILED) (node_ids g) then D_FAILED
  else if flag then D_CANCELLED
  else if forallb (fun n => status_eqb (st n) COMPLETED) (node_ids g)
       then D_COMPLETED
       else D_FAILED.

Definition running_nodes (d : Dispatch) : list node_id :=
  filter (fun n => status_eqb (status d n) RUNNING) (node_ids (graph d)).

(** Modelled from the spec (4.2 step 5): terminate when no node is RUNNING;
    PENDING nodes that are left can never run and are swept to CANCELLED. *)
Definition finalize (d : Dispatch) : Dispatch :=
  match running_nodes d with
  | [] =>
      let st := sweep_pending (status d) in
      mkDispatch (graph d) st (output d) (cancel_flag d)
                 (derive_status (graph d) st (cancel_flag d)) (submitted d)
                 (input_args d) (input_kwargs d)
  | _ :: _ => d
  end.

Definition schedule (d : Dispatch) : Dispatch := finalize (submit_runnable d).

Definition cancel_if_pending (m : node_id) (st : node_id -> node_status)
  : node_id -> node_status :=
  match st m with PENDING => upd st m CANCELLED | _ => st end.

(** Modelled from the spec (4.2 step 4): after a failure, every node that has
    the failed node as a transitive predecessor is marked CANCELLED if it has
    not started; a started one is left alone. *)
Fixpoint mark_descendants (fuel : nat) (g : TransportGraph) (n : node_id)
         (st : node_id -> node_status) : node_id -> node_status :=
  match fuel with
  | O => st
  | S fuel' =>
      fold_left (fun st' m => mark_descendants fuel' g m (cancel_if_pending m st'))
                (successors g n) st
  end.

(** What reaches the engine from outside: the scheduler is started, an
    Executor reports a completion or a failure, a caller cancels, an Executor
    reports that it stopped a task on request. *)
Inductive event :=
| ev_start
| ev_completed (n : node_id) (v : value)
| ev_failed (n : node_id)
| ev_cancel
| ev_stopped (n : node_id).

Definition node_honors_cancel (g : TransportGraph) (n : node_id) : bool :=
  match nth_error (nodes g) n with
  | Some nd => honors_cancel (executor nd)
  | None => false
  end.

Definition is_running (d : Dispatch) (n : node_id) : bool :=
  in_graph (graph d) n && status_eqb (status d n) RUNNING.

Definition handle (ev : event) (d : Dispatch) : Dispatch :=
  match ev with
  | ev_start => d
  | ev_completed n v =>
      if is_running d n
      then mkDispatch (graph d) (upd (status d) n COMPLETED)
                      (upd (output d) n (Some v)) (cancel_flag d) (dstatus d)
                      (submitted d) (input_args d) (input_kwargs d)
      else d
  | ev_failed n =>
      if is_running d n
      then with_status d
             (mark_descendants (length (nodes (graph d))) (graph d) n
                               (upd (status d) n FAILED))
      else d
  | ev_cancel =>
      mkDispatch (graph d) (status d) (output d) true (dstatus d)
                 (submitted d) (input_args d) (input_kwargs d)
  | ev_stopped n =>
      if is_running d n && cancel_flag d && node_honors_cancel (graph d) n
      then with_status d (upd (status d) n CANCELLED)
      else d
  end.

(** One transition of a Dispatch.  A terminal Dispatch is immutable; a created
    one only reacts to its start and to a cancellation. *)
Definition on_event (ev : event) (d : Dispatch) : Dispatch :=
  match dstatus d with
  | D_CREATED =>
      match ev with
      | ev_start => schedule (with_dstatus d D_RUNNING)
      | ev_cancel => schedule (handle ev_cancel d)
      | _ => d
      end
  | D_RUNNING =>
      match ev with
      | ev_start => d
      | _ => schedule (handle ev d)
      end
  | _ => d
  end.

Definition run_events (evs : list event) (d : Dispatch) : Dispatch :=
  fold_left (fun d' ev => on_event ev d') evs d.

(** The result of running node [n]: a parameter node yields its literal, a
    task node what the Executor makes of its submission. *)
Definition outcome_of (exec : Executor) (d : Dispatch) (n : node_id) : outcome :=
  match nth_error (nodes (graph d)) n with
  | Some nd =>
      match kind nd with
      | parameter v => Success v
      | _ =>
          match find (fun s => sub_node s =? n) (submitted d) with
          | Some s => exec s
          | None => Failure
          end
      end
  | None => Failure
  end.

Definition deliver (exec : Executor) (d : Dispatch) (n : node_id) : Dispatch :=
  on_event (match outcome_of exec d n with
            | Success v => ev_completed n v
            | Failure => ev_failed n
            end) d.

(** A scheduling round: the completions of all nodes in flight are consumed,
    each followed by a recomputation of the runnable set. *)
Definition round (exec : Executor) (d : Dispatch) : Dispatch :=
  fold_left (deliver exec) (running_nodes d) d.

Fixpoint run_rounds (exec : Executor) (k : nat) (d : Dispatch) : Dispatch :=
  match k with
  | O => d
  | S k' => run_rounds exec k' (round exec d)
  end.

(** Modelled from the spec: [run(dispatch) -> terminal Dispatch status]. *)
Definition scheduler_run (exec : Executor) (d : Dispatch) : Dispatch :=
  run_rounds exec (length (nodes (graph d))) (on_event ev_start d).

(** *** Dispatch creation and argument binding *)

Definition set_parameter (g : TransportGraph) (n : node_id) (v : value)
  : TransportGraph :=
  mkGraph (map (fun ind =>
                  if (fst ind =? n) then
                    match kind (snd ind) with
                    | parameter _ =>
                        mkNode (node_name (snd ind)) (parameter v) (executor (snd ind))
                    | _ => snd ind
                    end
                  else snd ind)
               (combine (seq 0 (length (nodes g))) (nodes g)))
          (edges g) (sig_args g) (sig_kwargs g).

Fixpoint list_string_eqb (a b : list string) : bool :=
  match a, b with
  | [], [] => true
  | x :: a', y :: b' => String.eqb x y && list_string_eqb a' b'
  | _, _ => false
  end.

(** Modelled from the spec (4.5 b): the root parameter nodes of the signature
    take the call's arguments in positional/keyword order; a call that does not
    fit the signature's arity is refused. *)
Definition bind_args (g : TransportGraph) (args : list value)
           (kwargs : list (string * value)) : option TransportGraph :=
  if (length args =? length (sig_args g)) &&
     list_string_eqb (map fst kwargs) (map fst (sig_kwargs g))
  then
    let g1 := fold_left (fun g' nv => set_parameter g' (fst nv) (snd nv))
                        (combine (sig_args g) args) g in
    Some (fold_left (fun g' nv => set_parameter g' (fst nv) (snd nv))
                    (combine (map snd (sig_kwargs g)) (map snd kwargs)) g1)
  else None.

Definition new_dispatch (g : TransportGraph) (args : list value)
           (kwargs : list (string * value)) : Dispatch :=
  mkDispatch g (fun _ => PENDING) (fun _ => None) false D_CREATED [] args kwargs.

(** Modelled from the spec: creating a Dispatch from a graph template and
    bound arguments; a structurally invalid request is rejected at call time. *)
Definition create (g : TransportGraph) (args : list value)
           (kwargs : list (string * value)) : engine_error + Dispatch :=
  match bind_args g args kwargs with
  | None => inl UnrunnableGraphError
  | Some g' =>
      if runnable_graph g' then inr (new_dispatch g' args kwargs)
      else inl UnrunnableGraphError
  end.

(** *** Result aggregation *)

Record Result := mkResult {
  r_status : dispatch_status;
  r_result : option value;
  r_outputs : list (string * node_id * option value);
  r_error : list string
}.

Definition is_post_process (nd : Node) : bool :=
  match kind nd with post_process _ => true | _ => false end.

Definition node_name_of (g : TransportGraph) (n : node_id) : string :=
  match nth_error (nodes g) n with
  | Some nd => node_name nd
  | None => EmptyString
  end.

(** The lattice result: the output of the post-process node, present only
    once that node has completed. *)
Definition lattice_result (d : Dispatch) : option value :=
  match filter (fun n => match nth_error (nodes (graph d)) n with
                         | Some nd => is_post_process nd
                         | None => false
                         end) (node_ids (graph d)) with
  | n :: _ => output d n
  | [] => None
  end.

(** The error summary: the names of the failed nodes. *)
Definition failed_names (d : Dispatch) : list string :=
  map (node_name_of (graph d))
      (filter (fun n => status_eqb (status d n) FAILED) (node_ids (graph d))).

Definition result_of (d : Dispatch) : Result :=
  mkResult (dstatus d) (lattice_result d)
           (map (fun n => (node_name_of (graph d) n, n, output d n))
                (node_ids (graph d)))
           (failed_names d).

(** *** The registry and the Dispatch API *)

(** Modelled from the spec: the dispatch-id keyed registry; a dispatch id is
    the position at which the Dispatch was registered. *)
Definition Registry := list Dispatch.

Definition dispatch (reg : Registry) (g : TransportGraph) (args : list value)
           (kwargs : list (string * value)) : engine_error + (Registry * nat) :=
  match create g args kwargs with
  | inl e => inl e
  | inr d => inr (reg ++ [d], length reg)
  end.

Fixpoint replace_nth {A : Type} (l : list A) (i : nat) (a : A) : list A :=
  match l, i with
  | [], _ => []
  | _ :: l', O => a :: l'
  | x :: l', S i' => x :: replace_nth l' i' a
  end.

(** Modelled from the spec: [cancel(dispatch_id)]. *)
Definition cancel (reg : Registry) (dispatch_id : nat) : engine_error + Registry :=
  match nth_error reg dispatch_id with
  | None => inl UnknownDispatch
  | Some d => inr (replace_nth reg dispatch_id (on_event ev_cancel d))
  end.

(** Modelled from the spec: [get_result(dispatch_id, wait)].  With [wait] the
    call returns once the scheduler has driven the Dispatch to a terminal
    status; without, it returns the present state. *)
Definition get_result (exec : Executor) (reg : Registry) (dispatch_id : nat)
           (wait : bool) : engine_error + Result :=
  match nth_error reg dispatch_id with
  | None => inl UnknownDispatch
  | Some d => inr (result_of (if wait then scheduler_run exec d else d))
  end.

(** *** Redispatch *)

Definition kind_eqb (a b : node_kind) : bool :=
  match a, b with
  | parameter v, parameter w => Z.eqb v w
  | task r, task r' => String.eqb r r'
  | post_process r, post_process r' => String.eqb r r'
  | _, _ => false
  end.

Fixpoint lookup_sub (subs : list (string * task_ref)) (name : string)
  : option task_ref :=
  match subs with
  | [] => None
  | (k, r) :: subs' => if String.eqb k name then Some r else lookup_sub subs' name
  end.

(** Modelled from the spec (4.5 a): a task node whose name is a key of
    [substitutions] gets the new task reference. *)
Definition substitute_node (subs : list (string * task_ref)) (nd : Node) : Node :=
  match kind nd with
  | task _ =>
      match lookup_sub subs (node_name nd) with
      | Some r => mkNode (node_name nd) (task r) (executor nd)
      | None => nd
      end
  | _ => nd
  end.

Definition substitute (subs : list (string * task_ref)) (g : TransportGraph)
  : TransportGraph :=
  mkGraph (map (substitute_node subs) (nodes g)) (edges g) (sig_args g)
          (sig_kwargs g).

Definition is_task_named (name : string) (nd : Node) : bool :=
  match kind nd with
  | task _ => String.eqb (node_name nd) name
  | _ => false
  end.

Definition substitutions_ok (subs : list (string * task_ref))
           (g : TransportGraph) : bool :=
  forallb (fun kr => existsb (is_task_named (fst kr)) (nodes g)) subs.

(** A node is changed when a substitution names it or when what it holds (its
    task reference, its parameter value) differs from the base run. *)
Definition node_changed (subs : list (string * task_ref))
           (gb gn : TransportGraph) (n : node_id) : bool :=
  match nth_error (nodes gb) n, nth_error (nodes gn) n with
  | Some b, Some c =>
      match kind b, lookup_sub subs (node_name b) with
      | task _, Some _ => true
      | _, _ => negb (kind_eqb (kind b) (kind c))
      end
  | _, _ => true
  end.

(** Modelled from the spec (4.5): a node is reused when it is unchanged, the
    base run holds an output for it, and the same is true of everything
    upstream of it, so that its resolved inputs are those of the base run. *)
Fixpoint reusable (fuel : nat) (subs : list (string * task_ref))
         (base : Dispatch) (gn : TransportGraph) (n : node_id) : bool :=
  match fuel with
  | O => false
  | S fuel' =>
      negb (node_changed subs (graph base) gn n) &&
      status_eqb (status base n) COMPLETED &&
      forallb (reusable fuel' subs base gn) (predecessors gn n)
  end.

(** Modelled from the spec: [redispatch(base, substitutions,
    reuse_previous_results)(args...)]. *)
Definition redispatch (base : Dispatch) (subs : list (string * task_ref))
           (reuse_previous_results : bool) (args : list value)
           (kwargs : list (string * value)) : engine_error + Dispatch :=
  if substitutions_ok subs (graph base) then
    match bind_args (substitute subs (graph base)) args kwargs with
    | None => inl RedispatchMismatchError
    | Some gn =>
        let keep n := reuse_previous_results && in_graph gn n &&
                      reusable (length (nodes gn)) subs base gn n in
        inr (mkDispatch gn
                        (fun n => if keep n then COMPLETED else PENDING)
                        (fun n => if keep n then output base n else None)
                        false D_CREATED [] args kwargs)
    end
  else inl RedispatchMismatchError.

Definition redispatch_api (reg : Registry) (base_id : nat)
           (subs : list (string * task_ref)) (reuse_previous_results : bool)
           (args : list value) (kwargs : list (string * value))
  : engine_error + (Registry * nat) :=
  match nth_error reg base_id with
  | None => inl UnknownDispatch
  | Some base =>
      match redispatch base subs reuse_previous_results args kwargs with
      | inl e => inl e
      | inr d => inr (reg ++ [d], length reg)
      end
  end.

End Engine.

(* ================================================================= *)
(** ** The documented workflows *)

Module Scenarios.
Import Engine.
Open Scope string_scope.

(** The default executor of the cancellation notebook: a task that has started
    runs to completion. *)
Definition dask : capability := mkCap "dask" false.

Definition param (v : Z) : Node := mkNode ":parameter:" (parameter v) dask.
Definition electron (name : string) : Node := mkNode name (task name) dask.
Definition postprocess : Node := mkNode ":postprocess:" (post_process "postprocess") dask.

(** The workflow of the notebook on waiting for another electron:
    [res_1 = task_1(2); res_2 = task_2(res_1, 3); res_3 = task_3(5);
     ct.wait(res_3, res_1); return task_2(res_2, res_3)],
    with the node numbering of the printed result and the post-process node
    last. *)
Definition wait_workflow : TransportGraph :=
  mkGraph
    [ electron "task_1"; param 2; electron "task_2"; param 3;
      electron "task_3"; param 5; electron "task_2"; postprocess ]
    [ mkEdge 1 0 (positional_arg 0);
      mkEdge 0 2 (positional_arg 0); mkEdge 3 2 (positional_arg 1);
      mkEdge 5 4 (positional_arg 0);
      mkEdge 0 4 wait_only;
      mkEdge 2 6 (positional_arg 0); mkEdge 4 6 (positional_arg 1);
      mkEdge 6 7 (positional_arg 0) ]
    [] [].

(** The same workflow without the [ct.wait] call. *)
Definition wait_workflow_no_wait : TransportGraph :=
  mkGraph (nodes wait_workflow)
          (filter (fun e => match ekind e with wait_only => false | _ => true end)
                  (edges wait_workflow))
          [] [].

(** The electrons of that notebook ([a ** 2], [x * y], [b ** 3]); the
    post-process task returns the declared return value. *)
Definition wait_tasks : Executor :=
  fun s =>
    match sub_args s with
    | [a] =>
        if String.eqb (sub_task s) "task_1" then Success (a * a)%Z
        else if String.eqb (sub_task s) "task_3" then Success (a * a * a)%Z
        else if String.eqb (sub_task s) "postprocess" then Success a
        else Failure
    | [x; y] =>
        if String.eqb (sub_task s) "task_2" then Success (x * y)%Z else Failure
    | _ => Failure
    end.

(** The same electrons with a [task_3] that raises. *)
Definition wait_tasks_failing : Executor :=
  fun s => if String.eqb (sub_task s) "task_3" then Failure else wait_tasks s.

(** The workflow of the cancellation notebook:
    [res_2 = task_2(task_1(10), x); for _ in range(10): task_1(10); task_3(res_2)]
    dispatched with [x = 5]; nodes 0..25 as printed.  The workflow returns
    nothing; its post-process node waits for every electron, as the printed
    result shows (it is still without output after the cancellation). *)
Definition cancel_workflow : TransportGraph :=
  mkGraph
    ([ electron "task_1"; param 10; electron "task_2"; param 0 ]
       ++ concat (repeat [electron "task_1"; param 10] 10)
       ++ [ electron "task_3"; postprocess ])
    ([ mkEdge 1 0 (positional_arg 0);
       mkEdge 0 2 (positional_arg 0); mkEdge 3 2 (positional_arg 1) ]
       ++ map (fun k => mkEdge (5 + 2 * k) (4 + 2 * k) (positional_arg 0)) (seq 0 10)
       ++ [ mkEdge 2 24 (positional_arg 0) ]
       ++ map (fun k => mkEdge (2 * k) 25 (positional_arg k)) (seq 0 13))
    [3] [].

(** [task_1] returns its argument, [task_2] the sum, [task_3] the square. *)
Definition cancel_tasks : Executor :=
  fun s =>
    if String.eqb (sub_task s) "postprocess" then Success 0%Z
    else
      match sub_args s with
      | [a] =>
          if String.eqb (sub_task s) "task_1" then Success a
          else if String.eqb (sub_task s) "task_3" then Success (a * a)%Z
          else Failure
      | [a; b] =>
          if String.eqb (sub_task s) "task_2" then Success (a + b)%Z else Failure
      | _ => Failure
      end.

End Scenarios.

(* ================================================================= *)
(** ** Theorems: dashboard *)

Module DashboardFacts.
Import Dashboard.
Open Scope Z_scope.

Lemma Set_has_In (s : list Z) (x : Z) : Set_has s x = true <-> In x s.
Proof.
  unfold Set_has. rewrite existsb_exists. split.
  - intros [y [Hy Heq]]. apply Z.eqb_eq in Heq. now subst.
  - intros H. exists x. split; [assumption | apply Z.eqb_refl].
Qed.

Lemma filterGraph_nodes (g : Graph) (p : GNode -> bool) (n : GNode) :
  In n (nodes (filterGraph g p)) <-> In n (nodes g) /\ p n = true.
Proof. unfold filterGraph; simpl. apply filter_In. Qed.

Lemma filterGraph_links (g : Graph) (p : GNode -> bool) (l : Link) :
  In l (links (filterGraph g p)) <->
  In l (links g) /\ exists n, In n (nodes g) /\ p n = true /\ id n = source l.
Proof.
  unfold filterGraph; simpl. rewrite filter_In, Set_has_In, in_map_iff.
  split; intros [Hl H]; split; try assumption.
  - destruct H as [n [Hid Hn]]. apply filter_In in Hn. exists n. tauto.
  - destruct H as [n [Hn [Hp Hid]]]. exists n. rewrite filter_In. tauto.
Qed.

(** A graph with nodes 0 and 1 and the link 0 -> 1, used below with the
    predicate that keeps node 0 only. *)
Definition g01 : Graph :=
  mkGraph [mkGNode 0 "task" "function"; mkGNode 1 ":postprocess:" "function"]
          [mkLink 0 1 "x"].

Definition keep0 (n : GNode) : bool := Z.eqb (id n) 0.

(** C10: [filterGraph] returns exactly the nodes that satisfy the predicate
    (in their order) and exactly the links whose source is the id of a kept
    node; the target plays no role, so a kept link can point at a node that
    was filtered out, as in [g01] filtered by [keep0]. *)
Theorem filterGraph_exact :
  (forall (g : Graph) (p : GNode -> bool),
      nodes (filterGraph g p) = filter p (nodes g) /\
      (forall n, In n (nodes (filterGraph g p)) <-> In n (nodes g) /\ p n = true) /\
      (forall l, In l (links (filterGraph g p)) <->
                 In l (links g) /\
                 exists n, In n (nodes g) /\ p n = true /\ id n = source l)) /\
  (exists (g : Graph) (p : GNode -> bool) (l : Link),
      In l (links (filterGraph g p)) /\
      ~ In (target l) (map id (nodes (filterGraph g p)))).
Proof.
  split.
  - intros g p. split; [reflexivity | split].
    + intros n. apply filterGraph_nodes.
    + intros l. apply filterGraph_links.
  - exists g01, keep0, (mkLink 0 1 "x"). split.
    + simpl. left. reflexivity.
    + simpl. intros [H | []]. discriminate H.
Qed.

End DashboardFacts.
